(** * A shallow embedding of the lambda-calculus REPL of [main.py]

    The program is a pipeline [scan], [parse], [interpret], [textify]
    driven line by line by [repl].  Each stage is embedded below from the
    Python source and the properties of the specification are stated and
    proved about those definitions. *)

From Stdlib Require Import String Ascii.
From stdpp Require Import gmap list.

(** ** Text

    A Python [str] is a sequence of Unicode code points and [for c in text]
    visits them one at a time.  A character is modelled by its code point
    and a string by the list of its characters. *)

Module Text.
Local Open Scope N_scope.

Definition char := N.
Abbreviation str := (list N).

Definition SPACE : char := 32.             (* ' '  U+0020 *)
Definition LEFT_PAREN_CHAR : char := 40.   (* '('  U+0028 *)
Definition RIGHT_PAREN_CHAR : char := 41.  (* ')'  U+0029 *)
Definition DOT_CHAR : char := 46.          (* '.'  U+002E *)
Definition BACKSLASH : char := 92.         (* '\\' U+005C *)
(** The glyph written in [scan], in [textify] and in the commented
    example of [main.py]: its UTF-8 bytes there are F0 9D 9B 8C, that
    is U+1D6CC MATHEMATICAL BOLD SMALL LAMDA. *)
Definition BOLD_LAMDA : char := 120524.
(** U+03BB GREEK SMALL LETTER LAMDA (UTF-8 bytes CE BB); it does not
    occur in [main.py]. *)
Definition GREEK_LAMDA : char := 955.

(** Literals are written as UTF-8 byte strings and decoded to code
    points, the way Python reads its source file and its input. *)
Fixpoint utf8_decode (bs : list N) : str :=
  match bs with
  | [] => []
  | b0 :: rest =>
      if b0 <? 128 then b0 :: utf8_decode rest
      else if b0 <? 224 then
        match rest with
        | b1 :: rest1 =>
            ((b0 - 192) * 64 + (b1 - 128)) :: utf8_decode rest1
        | _ => []
        end
      else if b0 <? 240 then
        match rest with
        | b1 :: b2 :: rest2 =>
            ((b0 - 224) * 4096 + (b1 - 128) * 64 + (b2 - 128))
              :: utf8_decode rest2
        | _ => []
        end
      else
        match rest with
        | b1 :: b2 :: b3 :: rest3 =>
            ((b0 - 240) * 262144 + (b1 - 128) * 4096
             + (b2 - 128) * 64 + (b3 - 128)) :: utf8_decode rest3
        | _ => []
        end
  end.

Definition bytes_of (s : string) : list N :=
  List.map N_of_ascii (list_ascii_of_string s).

Definition py (s : string) : str := utf8_decode (bytes_of s).

End Text.
Export Text.

(** ** Tokens and the scanner *)

Inductive Token := LAMBDA | DOT | LEFT_PAREN | RIGHT_PAREN | ID.

#[global] Instance Token_eq_dec : EqDecision Token.
Proof. solve_decision. Defined.

(** A token is the pair [(kind, payload)]; the payload is [''] except
    for [ID], where it is the one-character string [c]. *)
Abbreviation token := (Token * list N)%type.

(** The body of the [for] loop of [scan]: the tokens appended for [c]. *)
Definition scan_char (c : char) : list token :=
  if (c =? SPACE)%N then []
  else if (c =? BOLD_LAMDA)%N || (c =? BACKSLASH)%N then [(LAMBDA, [])]
  else if (c =? DOT_CHAR)%N then [(DOT, [])]
  else if (c =? LEFT_PAREN_CHAR)%N then [(LEFT_PAREN, [])]
  else if (c =? RIGHT_PAREN_CHAR)%N then [(RIGHT_PAREN, [])]
  else [(ID, [c])].

Definition scan (text : str) : list token :=
  fold_left (fun tokens c => tokens ++ scan_char c) text [].

(** ** Results of running Python code

    [TypeError] is what subscripting [None] raises, [IndexError] what
    [tokens[i]] raises past the end of the list, and [RecursionError]
    what a call raises when the call stack has no room for it.  The
    program defines no exception class of its own and has no [raise] or
    [try] statement. *)

Inductive exn := TypeError | IndexError | RecursionError.

Inductive result (A : Type) : Type :=
| Ok (a : A)
| Raise (e : exn).
Arguments Ok {A} a.
Arguments Raise {A} e.

#[global] Instance result_ret : MRet result := fun A a => Ok a.
#[global] Instance result_bind : MBind result := fun A B f m =>
  match m with
  | Ok a => f a
  | Raise e => Raise e
  end.

(** A stage that loops may also fail to finish: [Spins] is the outcome of
    a run that is still going when its fuel is used up. *)
Inductive outcome (A : Type) : Type :=
| Done (a : A)
| Fails (e : exn)
| Spins.
Arguments Done {A} a.
Arguments Fails {A} e.
Arguments Spins {A}.

Definition lift {A} (r : result A) : outcome A :=
  match r with
  | Ok a => Done a
  | Raise e => Fails e
  end.

Definition and_then {A B} (o : outcome A) (f : A -> result B) : outcome B :=
  match o with
  | Done a => lift (f a)
  | Fails e => Fails e
  | Spins => Spins
  end.

(** ** Terms

    An AST node is a tuple tagged with [Term.VAR], [Term.ABS] or
    [Term.APP].  The parameter of an abstraction is the node
    [(Term.VAR, param)] built by [var()]; it is stored by its name.
    [PyNone] is the [None] that [term()] returns when it leaves its loop
    without a [return]; it can end up inside a tuple. *)

Inductive ast :=
| PyNone
| VAR (name : str)
| ABS (param : str) (body : ast)
| APP (function argument : ast).

#[global] Instance ast_eq_dec : EqDecision ast.
Proof. solve_decision. Defined.

Fixpoint well_formed (t : ast) : bool :=
  match t with
  | PyNone => false
  | VAR _ => true
  | ABS _ body => well_formed body
  | APP f a => well_formed f && well_formed a
  end.

(** The depth of the tree: the number of nodes on its longest branch. *)
Fixpoint depth (t : ast) : nat :=
  match t with
  | PyNone => 1
  | VAR _ => 1
  | ABS _ body => S (depth body)
  | APP f a => S (depth f `max` depth a)
  end.

(** ** The parser

    [parse] keeps the cursor [i] in a variable shared by its three local
    functions; here they are state transformers on [i]. *)

Definition parser (A : Type) : Type := nat -> outcome (A * nat).

#[global] Instance parser_ret : MRet parser := fun A a i => Done (a, i).
#[global] Instance parser_bind : MBind parser := fun A B f m i =>
  match m i with
  | Done (a, i') => f a i'
  | Fails e => Fails e
  | Spins => Spins
  end.

Section parse.
Variable tokens : list token.

(** [i += 1] *)
Definition advance : parser unit := fun i => Done (tt, S i).

(** [tokens[i + k]], an [IndexError] past the end. *)
Definition peek (k : nat) : parser token := fun i =>
  match tokens !! (i + k) with
  | Some tok => Done (tok, i)
  | None => Fails IndexError
  end.

(** [i < len(tokens)] *)
Definition in_range : parser bool := fun i =>
  Done (bool_decide (i < length tokens), i).

(** [var()] returns the node [(Term.VAR, tokens[i][1])], here its name:
    [term] wraps it in [VAR] and [abs] stores it as the parameter.  The
    kind of the token is not looked at. *)
Definition var : parser str :=
  tok ← peek 0; advance;; mret tok.2.

Definition abs (term : parser ast) : parser ast :=
  advance;;
  v ← var;
  advance;;
  body ← term;
  mret (ABS v body).

(** [fuel] bounds the tests of the [while] condition of [term()] along
    any chain of nested calls: each test leaves one unit less to the rest
    of the loop and to the calls made from its body. *)
Fixpoint term (fuel : nat) : parser ast :=
  match fuel with
  | O => fun _ => Spins
  | S fuel =>
      continue ← in_range;
      if continue : bool then
        tok ← peek 0;
        match tok.1 with
        | ID => x ← var; mret (VAR x)
        | LEFT_PAREN =>
            next ← peek 1;
            if decide (next.1 = LAMBDA) then
              advance;;
              res ← abs (term fuel);
              advance;;
              mret res
            else
              advance;;
              res1 ← term fuel;
              res2 ← term fuel;
              advance;;
              mret (APP res1 res2)
        | _ => term fuel   (* no case matches: the loop tests again *)
        end
      else mret PyNone
  end.

Definition parse_fuel (fuel : nat) : outcome ast :=
  match term fuel 0 with
  | Done (t, _) => Done t
  | Fails e => Fails e
  | Spins => Spins
  end.

(** [S (length tokens)] units are enough whenever the parser finishes at
    all ([term_fuel_enough] below). *)
Definition parse : outcome ast := parse_fuel (S (length tokens)).

End parse.

(** ** The evaluator *)

(** An environment is a list of frames, each a dictionary from parameter
    nodes to terms. *)
Abbreviation frame := (gmap (list N) ast).

(** [find] walks [reversed(env)]; [Some res] stands for [(True, res)] and
    [None] for [(False, '')]. *)
Fixpoint find_in (frames : list frame) (var : str) : option ast :=
  match frames with
  | [] => None
  | d :: rest =>
      match d !! var with
      | Some res => Some res
      | None => find_in rest var
      end
  end.

Definition find (env : list frame) (var : str) : option ast :=
  find_in (reverse env) var.

Fixpoint interpret (t : ast) (env : list frame) : result ast :=
  match t with
  | PyNone => Raise TypeError
  | VAR x =>
      match find env x with
      | Some res => Ok res
      | None => Ok t
      end
  | ABS p body =>
      body' ← interpret body (env ++ [{[ p := VAR p ]}]);
      mret (ABS p body')
  | APP f a =>
      match f with
      | PyNone => Raise TypeError
      | ABS p body =>
          v ← interpret a env;
          interpret body (env ++ [{[ p := v ]}])
      | _ => Ok t
      end
  end.

(** ** The printer *)

Fixpoint textify (t : ast) : result str :=
  match t with
  | PyNone => Raise TypeError
  | VAR x => Ok x
  | ABS p body =>
      s ← textify body;
      mret ([LEFT_PAREN_CHAR; BOLD_LAMDA] ++ p ++ [DOT_CHAR] ++ s
            ++ [RIGHT_PAREN_CHAR])
  | APP f a =>
      s1 ← textify f;
      s2 ← textify a;
      mret ([LEFT_PAREN_CHAR] ++ s1 ++ s2 ++ [RIGHT_PAREN_CHAR])
  end.

(** The body of the loop of [repl]:
    [textify(interpret(parse(scan(line)), []))]. *)
Definition run (line : str) : outcome str :=
  and_then (and_then (parse (scan line)) (fun t => interpret t [])) textify.

(** ** Vocabulary of the properties *)

(** Outcomes seen from outside: an exception came out, a value came
    out. *)
Definition raised {A} (o : outcome A) : bool :=
  match o with
  | Fails _ => true
  | _ => false
  end.

Definition returned {A} (o : outcome A) : bool :=
  match o with
  | Done _ => true
  | _ => false
  end.

(** A character [c] is turned into a Lambda token wherever it occurs. *)
Definition scanned_as_lambda (c : char) : Prop :=
  forall before after : str,
    scan (before ++ c :: after) = scan before ++ (LAMBDA, []) :: scan after.

(** The number of nodes of a tree. *)
Fixpoint size (t : ast) : nat :=
  match t with
  | PyNone => 1
  | VAR _ => 1
  | ABS _ body => S (size body)
  | APP f a => S (size f + size a)
  end.

(** ** The call stack

    CPython bounds the depth of the call stack ([sys.getrecursionlimit()],
    1000 unless it is changed) and raises [RecursionError] in the call
    that would go past the bound.  [interpret] and [textify] above are
    the two functions on a stack with room to spare.  [interpret_within
    limit] and [textify_within limit] are the same functions when the
    stack has room for [limit] nested calls of the function, the room
    for the short calls made from inside one call ([find], the hashing
    of a key) being counted with it. *)
Fixpoint interpret_within (limit : nat) (t : ast) (env : list frame)
  : result ast :=
  match limit with
  | O => Raise RecursionError
  | S limit =>
      match t with
      | PyNone => Raise TypeError
      | VAR x =>
          match find env x with
          | Some res => Ok res
          | None => Ok t
          end
      | ABS p body =>
          body' ← interpret_within limit body (env ++ [{[ p := VAR p ]}]);
          mret (ABS p body')
      | APP f a =>
          match f with
          | PyNone => Raise TypeError
          | ABS p body =>
              v ← interpret_within limit a env;
              interpret_within limit body (env ++ [{[ p := v ]}])
          | _ => Ok t
          end
      end
  end.

Fixpoint textify_within (limit : nat) (t : ast) : result str :=
  match limit with
  | O => Raise RecursionError
  | S limit =>
      match t with
      | PyNone => Raise TypeError
      | VAR x => Ok x
      | ABS p body =>
          s ← textify_within limit body;
          mret ([LEFT_PAREN_CHAR; BOLD_LAMDA] ++ p ++ [DOT_CHAR] ++ s
                ++ [RIGHT_PAREN_CHAR])
      | APP f a =>
          s1 ← textify_within limit f;
          s2 ← textify_within limit a;
          mret ([LEFT_PAREN_CHAR] ++ s1 ++ s2 ++ [RIGHT_PAREN_CHAR])
      end
  end.

(** [n] abstractions of x around the variable x: a tree without [None],
    [S n] deep. *)
Fixpoint deep (n : nat) : ast :=
  match n with
  | O => VAR (py "x")
  | S n => ABS (py "x") (deep n)
  end.

(** Trees at most [D] deep. *)
Definition fits (D : nat) (t : ast) : bool := bool_decide (depth t <= D).


(** The terms on which the evaluator has nothing to do: no [None], and
    no application of a literal abstraction at the root or under the
    binders that lead to it. *)
Fixpoint normal (t : ast) : bool :=
  match t with
  | PyNone => false
  | VAR _ => true
  | ABS _ body => normal body
  | APP f _ =>
      match f with
      | VAR _ | APP _ _ => true
      | _ => false
      end
  end.

(** Environments whose bindings all hold normal terms, and environments
    made of self-binding frames only. *)
Definition env_normal (env : list frame) : Prop :=
  forall d x v, d ∈ env -> d !! x = Some v -> normal v = true.

Definition self_bound (env : list frame) : Prop :=
  forall d x v, d ∈ env -> d !! x = Some v -> v = VAR x.

(** No frame of [env] binds [x]. *)
Definition unbound (x : str) (env : list frame) : Prop :=
  forall d, d ∈ env -> d !! x = None.

(** [True] on a result that is a value, [False] on a raised exception. *)
Definition succeeds {A} (r : result A) : bool :=
  match r with
  | Ok _ => true
  | Raise _ => false
  end.

(** The characters with a [case] of their own in [scan]; every other
    character is ordinary and becomes an identifier. *)
Definition special : list char :=
  [SPACE; BOLD_LAMDA; BACKSLASH; DOT_CHAR; LEFT_PAREN_CHAR; RIGHT_PAREN_CHAR].

Definition ordinary (c : char) : bool := bool_decide (c ∉ special).

(** A name that the scanner can give back: one ordinary character. *)
Definition is_name (x : str) : bool :=
  match x with
  | [c] => ordinary c
  | _ => false
  end.

(** Trees without [None] whose variables and parameters are such names. *)
Fixpoint printable (t : ast) : bool :=
  match t with
  | PyNone => false
  | VAR x => is_name x
  | ABS p body => is_name p && printable body
  | APP f a => printable f && printable a
  end.

(** Environments whose bindings all satisfy [P]. *)
Definition env_all (P : ast -> bool) (env : list frame) : Prop :=
  forall d x v, d ∈ env -> d !! x = Some v -> P v = true.

(** ** The loop of [repl]

    The standard input is the list of the lines that [for line in
    sys.stdin] yields, the standard output the text written by the calls
    of [print].  An exception is not caught, so it ends the loop, and a
    line on which the parser spins is the last one looked at. *)

Definition NEWLINE : char := 10%N.
Definition prompt : str := [62%N; SPACE].   (* "> " *)

Fixpoint repl_loop (stdin : list str) : str * outcome unit :=
  match stdin with
  | [] => ([], Done tt)
  | line :: rest =>
      match run line with
      | Done s =>
          let '(out, status) := repl_loop rest in
          (s ++ [NEWLINE] ++ prompt ++ out, status)
      | Fails e => ([], Fails e)
      | Spins => ([], Spins)
      end
  end.

Definition repl (stdin : list str) : str * outcome unit :=
  let '(out, status) := repl_loop stdin in (prompt ++ out, status).

(** What the loop writes for a line on which the pipeline returns: the
    answer, the newline of [print] and the next prompt. *)
Definition answer (line : str) : str :=
  match run line with
  | Done s => s ++ [NEWLINE] ++ prompt
  | _ => []
  end.

(** Rewriting with an equation about a run of [term], up to the
    unfolding of the abbreviations in the token list. *)
Ltac rewrite_run H :=
  match type of H with
  | ?lhs = _ =>
      match goal with
      | |- context [term ?tokens ?fuel ?i] =>
          change (term tokens fuel i) with lhs; rewrite H
      end
  end.

(** * Properties *)

(** ** Reading literals *)

Lemma py_glyphs :
  py "λ" = [GREEK_LAMDA] /\ py "𝛌" = [BOLD_LAMDA] /\ py "\" = [BACKSLASH]
  /\ py " " = [SPACE] /\ py "(.)" = [LEFT_PAREN_CHAR; DOT_CHAR; RIGHT_PAREN_CHAR].
Proof. repeat split. Qed.

(** ** The scanner *)

Section scan_facts.

Lemma scan_fold (text : str) (acc : list token) :
  fold_left (fun tokens c => tokens ++ scan_char c) text acc
  = acc ++ scan text.
Proof.
  unfold scan. revert acc.
  induction text as [|c text IH]; intros acc; simpl.
  - by rewrite app_nil_r.
  - rewrite (IH (scan_char c)), (IH (acc ++ scan_char c)).
    by rewrite <- app_assoc.
Qed.

Lemma scan_nil : scan [] = [].
Proof. reflexivity. Qed.

Lemma scan_cons (c : char) (text : str) :
  scan (c :: text) = scan_char c ++ scan text.
Proof. unfold scan at 1. simpl. apply scan_fold. Qed.

Lemma scan_app (text1 text2 : str) :
  scan (text1 ++ text2) = scan text1 ++ scan text2.
Proof.
  induction text1 as [|c text1 IH]; simpl; [done|].
  by rewrite !scan_cons, IH, app_assoc.
Qed.

Lemma scan_char_length (c : char) :
  length (scan_char c) = if decide (c = SPACE) then 0 else 1.
Proof.
  unfold scan_char.
  destruct (N.eqb_spec c SPACE) as [->|Hc].
  - by rewrite decide_True.
  - rewrite decide_False by done.
    repeat case_match; reflexivity.
Qed.

End scan_facts.

(** ** The parser *)

Section parse_facts.
Variable tokens : list token.

(** What one round of [term()] does, by cases on the tokens at the
    cursor. *)
Lemma term_S (fuel i : nat) :
  term tokens (S fuel) i =
  match tokens !! i with
  | None => Done (PyNone, i)
  | Some (ID, x) => Done (VAR x, S i)
  | Some (LEFT_PAREN, _) =>
      match tokens !! S i with
      | None => Fails IndexError
      | Some (LAMBDA, _) =>
          match tokens !! S (S i) with
          | None => Fails IndexError
          | Some (_, x) =>
              match term tokens fuel (4 + i) with
              | Done (body, j) => Done (ABS x body, S j)
              | Fails e => Fails e
              | Spins => Spins
              end
          end
      | Some _ =>
          match term tokens fuel (S i) with
          | Done (res1, j) =>
              match term tokens fuel j with
              | Done (res2, k) => Done (APP res1 res2, S k)
              | Fails e => Fails e
              | Spins => Spins
              end
          | Fails e => Fails e
          | Spins => Spins
          end
      end
  | Some _ => term tokens fuel i
  end.
Proof.
  cbn [term]. unfold mbind, mret, parser_bind, parser_ret, in_range.
  destruct (tokens !! i) as [[k x]|] eqn:Hi.
  - rewrite bool_decide_eq_true_2 by (by eapply lookup_lt_Some).
    unfold peek at 1. rewrite Nat.add_0_r, Hi. cbn [fst].
    destruct k; try reflexivity.
    + unfold peek. rewrite Nat.add_1_r.
      destruct (tokens !! S i) as [[k1 x1]|]; [|reflexivity]. cbn [fst].
      destruct (decide (k1 = LAMBDA)) as [->|Hk].
      * unfold abs, var, advance, peek, mbind, mret, parser_bind, parser_ret.
        rewrite Nat.add_0_r.
        destruct (tokens !! S (S i)) as [[k2 x2]|]; [|reflexivity].
        cbn [snd plus].
        destruct (term tokens fuel (S (S (S (S i))))) as [[body j]| |];
          reflexivity.
      * unfold advance.
        destruct k1; try done;
          destruct (term tokens fuel (S i)) as [[res1 j]| |];
          try reflexivity;
          destruct (term tokens fuel j) as [[res2 k]| |]; reflexivity.
    + unfold var, advance, peek, mbind, mret, parser_bind, parser_ret.
      by rewrite Nat.add_0_r, Hi.
  - rewrite bool_decide_eq_false_2; [reflexivity|].
    apply lookup_ge_None in Hi. lia.
Qed.

(** A token that no [case] of [term()] matches is tested for ever. *)
Lemma term_stuck (i : nat) (k : Token) (x : str) :
  tokens !! i = Some (k, x) -> k <> ID -> k <> LEFT_PAREN ->
  forall fuel, term tokens fuel i = Spins.
Proof.
  intros Hi Hid Hlp fuel.
  induction fuel as [|fuel IH]; [reflexivity|].
  rewrite term_S, Hi. by destruct k.
Qed.

(** The cursor never moves back. *)
Lemma term_cursor (fuel : nat) :
  forall i t j, term tokens fuel i = Done (t, j) -> i <= j.
Proof.
  induction fuel as [|fuel IH]; intros i t j; [done|].
  rewrite term_S.
  destruct (tokens !! i) as [[[] x]|]; eauto;
    try (intros [= _ <-]; lia).
  destruct (tokens !! S i) as [[[] x1]|]; try done.
  2-5: destruct (term tokens fuel (S i)) as [[res1 j1]| |] eqn:E1;
       try done;
       destruct (term tokens fuel j1) as [[res2 j2]| |] eqn:E2;
       try done;
       intros [= _ <-]; apply IH in E1, E2; lia.
  destruct (tokens !! S (S i)) as [[k2 x2]|]; try done.
  destruct (term tokens fuel (4 + i)) as [[body j1]| |] eqn:E; try done.
  intros [= _ <-]. apply IH in E. lia.
Qed.

(** A run that finished is not changed by more fuel. *)
Lemma term_more_fuel (fuel : nat) :
  forall i, term tokens fuel i <> Spins ->
            term tokens (S fuel) i = term tokens fuel i.
Proof.
  induction fuel as [|fuel IH]; intros i Hns; [done|].
  rewrite (term_S (S fuel) i). rewrite (term_S fuel i) in Hns |- *.
  destruct (tokens !! i) as [[[] x]|]; auto.
  destruct (tokens !! S i) as [[[] x1]|]; try done.
  2-5: destruct (term tokens fuel (S i)) as [[res1 j1]| |] eqn:E1;
       [|by rewrite (IH (S i)), E1 by (by rewrite E1)|done];
       rewrite (IH (S i)), E1 by (by rewrite E1);
       destruct (term tokens fuel j1) as [[res2 j2]| |] eqn:E2;
       try done;
       by rewrite (IH j1), E2 by (by rewrite E2).
  destruct (tokens !! S (S i)) as [[k2 x2]|]; try done.
  destruct (term tokens fuel (4 + i)) as [[body j1]| |] eqn:E; try done;
    by rewrite (IH (4 + i)), E by (by rewrite E).
Qed.

Lemma term_fuel_le (fuel fuel' : nat) (i : nat) :
  fuel <= fuel' -> term tokens fuel i <> Spins ->
  term tokens fuel' i = term tokens fuel i.
Proof.
  induction 1 as [|fuel' Hle IH]; intros Hns; [done|].
  rewrite term_more_fuel; rewrite IH; done.
Qed.

(** Two finished runs from the same cursor agree. *)
Lemma term_agree (fuel fuel' : nat) (i : nat) :
  term tokens fuel i <> Spins -> term tokens fuel' i <> Spins ->
  term tokens fuel i = term tokens fuel' i.
Proof.
  intros H H'. destruct (Nat.le_gt_cases fuel fuel').
  - symmetry. by apply term_fuel_le.
  - apply term_fuel_le; [lia|done].
Qed.

(** With more fuel than tokens left, a run that is cut short never
    finishes. *)
Lemma term_spins_forever (fuel : nat) :
  forall i, length tokens - i < fuel -> term tokens fuel i = Spins ->
            forall fuel', term tokens fuel' i = Spins.
Proof.
  induction fuel as [|fuel IH]; intros i Hlt Hs fuel'; [lia|].
  rewrite term_S in Hs.
  destruct (tokens !! i) as [[k x]|] eqn:Hi; [|done].
  assert (i < length tokens) by (by eapply lookup_lt_Some).
  destruct (decide (k = ID)) as [->|Hid]; [done|].
  destruct (decide (k = LEFT_PAREN)) as [->|Hlp];
    [|by eapply term_stuck].
  destruct fuel' as [|fuel']; [reflexivity|].
  rewrite term_S, Hi.
  destruct (tokens !! S i) as [[k1 x1]|]; [|done].
  assert (Happ :
    match term tokens fuel (S i) with
    | Done (res1, j) =>
        match term tokens fuel j with
        | Done (res2, k) => Done (APP res1 res2, S k)
        | Fails e => Fails e
        | Spins => Spins
        end
    | Fails e => Fails e
    | Spins => Spins
    end = Spins ->
    match term tokens fuel' (S i) with
    | Done (res1, j) =>
        match term tokens fuel' j with
        | Done (res2, k) => Done (APP res1 res2, S k)
        | Fails e => Fails e
        | Spins => Spins
        end
    | Fails e => Fails e
    | Spins => @Spins (ast * nat)
    end = Spins).
  { clear Hs. intros Hs.
    destruct (term tokens fuel (S i)) as [[res1 j1]| |] eqn:E1; [|done|].
    - destruct (term tokens fuel' (S i)) as [[res1' j1']|e|] eqn:E1';
        [| |done];
        (assert (Heq : term tokens fuel (S i) = term tokens fuel' (S i))
          by (apply term_agree; congruence));
        rewrite E1, E1' in Heq; [|done].
      injection Heq as <- <-.
      apply term_cursor in E1.
      destruct (term tokens fuel j1) as [[res2 j2]| |] eqn:E2; try done.
      rewrite (IH j1); [done|lia|done].
    - rewrite (IH (S i)); [done|lia|done]. }
  destruct k1; auto.
  destruct (tokens !! S (S i)) as [[k2 x2]|]; [|done].
  destruct (term tokens fuel (4 + i)) as [[body j1]| |] eqn:E; try done.
  rewrite (IH (4 + i)); [done|lia|done].
Qed.

(** Fuel beyond the number of tokens left makes no difference: the
    outcome at that fuel is the outcome of the Python run, [Spins]
    included. *)
Theorem term_fuel_enough (fuel fuel' : nat) (i : nat) :
  length tokens - i < fuel -> fuel <= fuel' ->
  term tokens fuel' i = term tokens fuel i.
Proof.
  intros Hlt Hle.
  destruct (term tokens fuel i) as [r|e|] eqn:E.
  - rewrite <- E. apply term_fuel_le; [done|congruence].
  - rewrite <- E. apply term_fuel_le; [done|congruence].
  - by eapply term_spins_forever.
Qed.

Corollary term_stuck_parse (k : Token) (x : str) :
  tokens !! 0 = Some (k, x) -> k <> ID -> k <> LEFT_PAREN ->
  forall fuel, parse_fuel tokens fuel = Spins.
Proof.
  intros H0 Hid Hlp fuel. unfold parse_fuel.
  by rewrite (term_stuck 0 k x).
Qed.

Corollary parse_fuel_enough (fuel : nat) :
  length tokens < fuel -> parse_fuel tokens fuel = parse tokens.
Proof.
  intros Hlt. unfold parse, parse_fuel.
  rewrite (term_fuel_enough (S (length tokens)) fuel); [done|lia|lia].
Qed.

Corollary parse_spins_forever :
  parse tokens = Spins -> forall fuel, parse_fuel tokens fuel = Spins.
Proof.
  unfold parse, parse_fuel. intros Hs fuel.
  destruct (term tokens (S (length tokens)) 0) as [[t j]| |] eqn:E;
    try done.
  rewrite (term_spins_forever (S (length tokens)) 0); [done|lia|done].
Qed.

End parse_facts.

(** ** The evaluator *)

Section interpret_facts.

(** Induction along the calls of [interpret]: under an application of a
    literal abstraction the recursion goes into the body of the
    abstraction and into the argument. *)
Lemma ast_redex_ind (P : ast -> Prop) :
  P PyNone ->
  (forall x, P (VAR x)) ->
  (forall p body, P body -> P (ABS p body)) ->
  (forall p body a, P body -> P a -> P (APP (ABS p body) a)) ->
  (forall f a, (forall p body, f <> ABS p body) -> P (APP f a)) ->
  forall t, P t.
Proof.
  intros HNone HVar HAbs HRedex HStuck t.
  remember (depth t) as n eqn:Hn.
  assert (Hle : depth t <= n) by lia. clear Hn.
  revert t Hle. induction n as [|n IH]; intros t Hle.
  - destruct t; simpl in Hle; lia.
  - destruct t as [|x|p body|f a]; simpl in Hle; auto.
    + apply HAbs, IH. lia.
    + destruct f as [|x|p body|g h]; try (by apply HStuck).
      simpl in Hle. apply HRedex; apply IH; lia.
Qed.

Lemma find_in_Some (frames : list frame) (x : str) (v : ast) :
  find_in frames x = Some v -> exists d, d ∈ frames /\ d !! x = Some v.
Proof.
  induction frames as [|d frames IH]; simpl; [done|].
  destruct (d !! x) as [w|] eqn:Hd.
  - intros [= <-]. exists d. split; [left|done].
  - intros (d' & Hin & Hd')%IH. exists d'. split; [by right|done].
Qed.

Lemma find_Some (env : list frame) (x : str) (v : ast) :
  find env x = Some v -> exists d, d ∈ env /\ d !! x = Some v.
Proof.
  intros (d & Hin & Hd)%find_in_Some. exists d.
  by rewrite elem_of_reverse in Hin.
Qed.

Lemma find_in_None (frames : list frame) (x : str) :
  (forall d, d ∈ frames -> d !! x = None) -> find_in frames x = None.
Proof.
  induction frames as [|d frames IH]; simpl; [done|]. intros H.
  rewrite (H d) by left. apply IH. intros d' Hin. apply H. by right.
Qed.

Lemma find_None (env : list frame) (x : str) :
  unbound x env -> find env x = None.
Proof.
  intros H. apply find_in_None. intros d Hin. apply H.
  by rewrite elem_of_reverse in Hin.
Qed.

Lemma env_normal_snoc (env : list frame) (p : str) (v : ast) :
  env_normal env -> normal v = true -> env_normal (env ++ [{[ p := v ]}]).
Proof.
  intros Henv Hv d x w [Hin|Hin%list_elem_of_singleton]%elem_of_app Hd.
  - by eapply Henv.
  - subst d. apply lookup_singleton_Some in Hd as [_ <-]. done.
Qed.

Lemma self_bound_snoc (env : list frame) (p : str) :
  self_bound env -> self_bound (env ++ [{[ p := VAR p ]}]).
Proof.
  intros Henv d x w [Hin|Hin%list_elem_of_singleton]%elem_of_app Hd.
  - by eapply Henv.
  - subst d. by apply lookup_singleton_Some in Hd as [<- <-].
Qed.

Lemma env_normal_nil : env_normal [].
Proof. intros d x v Hin. by apply elem_of_nil in Hin. Qed.

Lemma self_bound_nil : self_bound [].
Proof. intros d x v Hin. by apply elem_of_nil in Hin. Qed.

(** What [interpret] returns is normal when the bindings are. *)
Lemma interpret_normal (t : ast) :
  forall env v, env_normal env -> interpret t env = Ok v ->
                normal v = true.
Proof.
  induction t as [|x|p body IH|p body a IHbody IHa|f a Hf]
    using ast_redex_ind; intros env v Henv; simpl.
  - done.
  - destruct (find env x) as [res|] eqn:Hfind; intros [= <-]; [|done].
    apply find_Some in Hfind as (d & Hin & Hd). by eapply Henv.
  - destruct (interpret body _) as [body'|e] eqn:Hbody; [|done].
    intros [= <-]. simpl. eapply IH; [|done].
    by apply env_normal_snoc.
  - destruct (interpret a env) as [w|e] eqn:Ha; [|done]. simpl.
    intros Hbody. eapply IHbody; [|exact Hbody].
    apply env_normal_snoc; [done|]. by eapply IHa.
  - destruct f as [|x|p body|g h];
      [done| |by destruct (Hf p body)| ]; by intros [= <-].
Qed.

(** A normal term is returned as it is under self-binding frames. *)
Lemma interpret_fixed (t : ast) :
  forall env, normal t = true -> self_bound env -> interpret t env = Ok t.
Proof.
  induction t as [|x|p body IH|f _ a _]; intros env Hn Henv; simpl in *.
  - done.
  - destruct (find env x) as [res|] eqn:Hfind; [|done].
    apply find_Some in Hfind as (d & Hin & Hd).
    by rewrite (Henv d x res Hin Hd).
  - by rewrite IH by (done || by apply self_bound_snoc).
  - by destruct f.
Qed.

Lemma interpret_total (t : ast) :
  forall env, well_formed t = true -> exists v, interpret t env = Ok v.
Proof.
  induction t as [|x|p body IH|p body a IHbody IHa|f a Hf]
    using ast_redex_ind; intros env Hwf; simpl in *.
  - done.
  - destruct (find env x); eauto.
  - destruct (IH (env ++ [{[ p := VAR p ]}]) Hwf) as [body' ->].
    simpl. eauto.
  - apply andb_prop in Hwf as [Hbody Ha].
    destruct (IHa env Ha) as [w ->]. simpl. by apply IHbody.
  - destruct f as [|x|p body|g h];
      [done| |by destruct (Hf p body)| ]; eauto.
Qed.

(** With room for as many nested calls as the tree is deep, the run on
    the bounded stack is the run with room to spare. *)
Lemma interpret_within_depth (t : ast) :
  forall limit env, depth t <= limit ->
                    interpret_within limit t env = interpret t env.
Proof.
  induction t as [|x|p body IH|p body a IHbody IHa|f a Hf]
    using ast_redex_ind; intros [|limit] env Hd; simpl in *; try lia.
  - done.
  - by destruct (find env x).
  - by rewrite IH by lia.
  - rewrite IHa by lia. destruct (interpret a env); simpl; [|done].
    apply IHbody. lia.
  - destruct f as [|x|p body|g h]; try done. by destruct (Hf p body).
Qed.


Lemma depth_deep (n : nat) : depth (deep n) = S n.
Proof. induction n as [|n IH]; [reflexivity|]. simpl. by rewrite IH. Qed.


Lemma find_snoc (env : list frame) (d : frame) (x : str) :
  find (env ++ [d]) x
  = match d !! x with
    | Some v => Some v
    | None => find env x
    end.
Proof. unfold find. by rewrite reverse_snoc. Qed.

Lemma find_push (env : list frame) (p x : str) (v : ast) :
  find (env ++ [{[ p := v ]}]) x
  = if decide (p = x) then Some v else find env x.
Proof.
  rewrite find_snoc. case_decide as Hpx.
  - subst. by rewrite lookup_singleton_eq.
  - by rewrite lookup_singleton_ne.
Qed.


End interpret_facts.

(** * The claims of the specification *)

(** C1, as the specification writes it, with U+03BB for the lambda
    glyph: the pipeline does not print (λy.z).  The scanner does not
    know U+03BB, so both occurrences become identifiers, the dots are
    skipped where a closing parenthesis is expected, and the term read is
    an application of two applications, printed ((λx)(λy)). *)
Lemma C1_greek_glyph_counterexample :
  run (py "((λx.(λy.x))z)") = Done (py "((λx)(λy))")
  /\ run (py "((λx.(λy.x))z)") <> Done (py "(λy.z)").
Proof. split; [reflexivity|discriminate]. Qed.

(** C1, amended: with the glyph of the program, U+1D6CC, in place of
    U+03BB, the pipeline on the K-combinator example ((𝛌x.(𝛌y.x))z)
    returns the string (𝛌y.z). *)
Theorem C1_k_combinator :
  run (py "((𝛌x.(𝛌y.x))z)") = Done (py "(𝛌y.z)").
Proof. reflexivity. Qed.

(** The backslash is read as a lambda too, and printed as U+1D6CC. *)
Remark k_combinator_backslash :
  run (py "((\x.(\y.x))z)") = Done (py "(𝛌y.z)").
Proof. reflexivity. Qed.

(** C2: an application whose function is a literal abstraction is
    reduced by interpreting the body with the parameter bound to the
    interpreted argument, the argument being interpreted first; an
    application whose function is a variable or another application is
    returned as it is; and the pipeline maps (xy) to (xy). *)
Theorem C2_app_reduces_literal_abs_only :
  (forall p body a env,
      interpret (APP (ABS p body) a) env
      = interpret a env ≫= fun v => interpret body (env ++ [{[ p := v ]}]))
  /\ (forall x a env, interpret (APP (VAR x) a) env = Ok (APP (VAR x) a))
  /\ (forall g h a env,
         interpret (APP (APP g h) a) env = Ok (APP (APP g h) a))
  /\ run (py "(xy)") = Done (py "(xy)").
Proof. repeat split. Qed.

(** C3: interpreting an abstraction interprets its body under one more
    frame that binds the parameter to itself and rebuilds the
    abstraction around the result.  The descent does reduce the body: a
    redex under the binder is gone from the result.  The new frame does
    answer for the parameter: a variable that the environment binds to
    [v] is replaced by [v] outside the binder and left alone under it.
    So Abs(p, Abs(p, Var p)) comes back unchanged from any environment,
    and Abs(x, Abs(x, Var x)) from the empty one. *)
Theorem C3_abs_self_binding_frame :
  (forall p body env,
      interpret (ABS p body) env
      = interpret body (env ++ [{[ p := VAR p ]}])
          ≫= fun body' => Ok (ABS p body'))
  /\ (forall p q env,
         interpret (ABS p (APP (ABS q (VAR q)) (VAR p))) env
         = Ok (ABS p (VAR p)))
  /\ (forall p v env,
         interpret (VAR p) (env ++ [{[ p := v ]}]) = Ok v
         /\ interpret (ABS p (VAR p)) (env ++ [{[ p := v ]}])
            = Ok (ABS p (VAR p)))
  /\ (forall p env,
         interpret (ABS p (ABS p (VAR p))) env = Ok (ABS p (ABS p (VAR p))))
  /\ interpret (ABS (py "x") (ABS (py "x") (VAR (py "x")))) []
     = Ok (ABS (py "x") (ABS (py "x") (VAR (py "x")))).
Proof.
  split; [reflexivity|]. split; [|split; [|split; [|reflexivity]]].
  - intros p q env. simpl. rewrite find_push, decide_True by done. simpl.
    by rewrite find_push, decide_True.
  - intros p v env. simpl. by rewrite !find_push, !decide_True.
  - intros p env. simpl. by rewrite find_push, decide_True.
Qed.

(** Read from text with the glyph of the program, the shadowing example
    is printed back as it was typed. *)
Remark shadowing_pipeline :
  parse (scan (py "(𝛌x.(𝛌x.x))"))
  = Done (ABS (py "x") (ABS (py "x") (VAR (py "x"))))
  /\ run (py "(𝛌x.(𝛌x.x))") = Done (py "(𝛌x.(𝛌x.x))").
Proof. split; reflexivity. Qed.

(** C4: a variable that no frame of the environment binds is returned
    unchanged, without an exception; the pipeline maps x to x. *)
Theorem C4_free_variable_unchanged (x : str) (env : list frame)
    (Hfree : unbound x env) :
  interpret (VAR x) env = Ok (VAR x)
  /\ run (py "x") = Done (py "x").
Proof.
  split; [|reflexivity]. simpl. by rewrite find_None.
Qed.

Lemma C4_free_variable_witness :
  unbound (py "x") [{[ py "y" := VAR (py "z") ]}]
  /\ interpret (VAR (py "x")) [{[ py "y" := VAR (py "z") ]}]
     = Ok (VAR (py "x"))
  /\ run (py "x") = Done (py "x").
Proof.
  assert (Hfree : unbound (py "x") [{[ py "y" := VAR (py "z") ]}]).
  { intros d ->%list_elem_of_singleton. reflexivity. }
  split; [exact Hfree|].
  exact (C4_free_variable_unchanged _ _ Hfree).
Defined.

(** C5, as the specification writes it, with U+03BB: scanning that
    character gives an Identifier token carrying it, not a Lambda
    token. *)
Lemma C5_greek_glyph_counterexample :
  scan (py "λ") = [(ID, py "λ")] /\ ~ scanned_as_lambda GREEK_LAMDA.
Proof.
  split; [reflexivity|]. intros H. specialize (H [] []). discriminate H.
Qed.

(** C5, amended: for every input text, each occurrence of the
    character U+1D6CC and each occurrence of the backslash is mapped to a
    Lambda token with the empty payload. *)
Theorem C5_lambda_tokens :
  scanned_as_lambda BOLD_LAMDA /\ scanned_as_lambda BACKSLASH.
Proof.
  split; intros before after; by rewrite scan_app, scan_cons.
Qed.

(** C6: a term returned by interpret from the empty environment is
    returned unchanged when interpreted again from the empty
    environment, so both print the same. *)
Theorem C6_interpret_idempotent (s t : ast)
    (Himage : interpret s [] = Ok t) :
  interpret t [] = Ok t
  /\ interpret t [] ≫= textify = textify t.
Proof.
  assert (Hfix : interpret t [] = Ok t).
  { apply interpret_fixed; [|apply self_bound_nil].
    eapply interpret_normal; [apply env_normal_nil|exact Himage]. }
  split; [exact Hfix|]. by rewrite Hfix.
Qed.

Lemma C6_interpret_idempotent_witness :
  interpret (APP (ABS (py "x") (ABS (py "y") (VAR (py "x")))) (VAR (py "z")))
    [] = Ok (ABS (py "y") (VAR (py "z")))
  /\ interpret (ABS (py "y") (VAR (py "z"))) []
     = Ok (ABS (py "y") (VAR (py "z")))
  /\ interpret (ABS (py "y") (VAR (py "z"))) [] ≫= textify
     = textify (ABS (py "y") (VAR (py "z"))).
Proof.
  split; [reflexivity|].
  apply (C6_interpret_idempotent
           (APP (ABS (py "x") (ABS (py "y") (VAR (py "x")))) (VAR (py "z")))).
  reflexivity.
Defined.




(** C8: the number of tokens that scan returns is the number of
    characters of the text other than the space character, the
    whitespace of the specification; a space gives no token. *)
Theorem C8_scan_length (text : str) :
  length (scan text) = length (filter (fun c => c <> SPACE) text)
  /\ scan_char SPACE = [].
Proof.
  split; [|reflexivity].
  induction text as [|c text IH]; [reflexivity|].
  rewrite scan_cons, length_app, scan_char_length, IH, filter_cons.
  repeat case_decide; done.
Qed.

(** Only U+0020 is dropped: a tab or the newline that ends a line read
    from the input is an identifier like any other character. *)
Remark scan_tab_newline :
  scan [9%N] = [(ID, [9%N])] /\ scan [10%N] = [(ID, [10%N])].
Proof. split; reflexivity. Qed.

(** The closing parenthesis matches no [case] of [term()], and the loop
    does not move the cursor. *)
Lemma parse_right_paren_spins (fuel : nat) :
  parse_fuel (scan (py ")")) fuel = Spins.
Proof. by apply (term_stuck_parse (scan (py ")")) RIGHT_PAREN []). Qed.

(** C9, as the specification writes it: parse applied to scan(")") raises
    no exception at all, however long it is run. *)
Lemma C9_no_parse_error_counterexample :
  ~ exists fuel, raised (parse_fuel (scan (py ")")) fuel) = true.
Proof.
  intros [fuel H]. by rewrite parse_right_paren_spins in H.
Qed.

(** C9, amended: applying parse to scan(")") raises no ParseError, which
    the program does not have, nor any other exception, and returns no
    term. *)
Theorem C9_parse_right_paren :
  forall fuel,
    raised (parse_fuel (scan (py ")")) fuel) = false
    /\ returned (parse_fuel (scan (py ")")) fuel) = false.
Proof.
  intros fuel. by rewrite parse_right_paren_spins.
Qed.

(** C10: scanning the empty text gives no token; on the empty token
    sequence parse finishes and returns None, which is neither a term nor
    an exception; the failure comes one stage later, when interpret
    subscripts None. *)
Theorem C10_parse_empty :
  scan (py "") = []
  /\ parse [] = Done PyNone
  /\ (forall fuel, parse_fuel [] (S fuel) = Done PyNone)
  /\ well_formed PyNone = false
  /\ interpret PyNone [] = Raise TypeError
  /\ run (py "") = Fails TypeError.
Proof. repeat split. Qed.


(** * Further properties of the code *)

(** ** The scanner *)

(** X1: scanning is done character by character, so the tokens of a
    concatenation are the tokens of its parts, in order. *)
Theorem X1_scan_concatenation (text1 text2 : str) :
  scan (text1 ++ text2) = scan text1 ++ scan text2.
Proof. apply scan_app. Qed.

(** X2: spaces never matter: the text with its spaces removed has the
    same tokens. *)
Theorem X2_scan_ignores_spaces (text : str) :
  scan (filter (fun c => c <> SPACE) text) = scan text.
Proof.
  induction text as [|c text IH]; [reflexivity|].
  rewrite filter_cons. case_decide as Hc.
  - rewrite !scan_cons. f_equal. exact IH.
  - rewrite Hc, scan_cons. exact IH.
Qed.

Lemma scan_char_shape (c : char) (k : Token) (x : str) :
  (k, x) ∈ scan_char c ->
  match k with
  | ID => x = [c] /\ ordinary c = true
  | _ => x = []
  end.
Proof.
  unfold scan_char, ordinary, special.
  destruct (c =? SPACE)%N eqn:E1; [by intros ?%elem_of_nil|].
  destruct ((c =? BOLD_LAMDA)%N || (c =? BACKSLASH)%N) eqn:E2;
    [by intros [= -> ->]%list_elem_of_singleton|].
  destruct (c =? DOT_CHAR)%N eqn:E3;
    [by intros [= -> ->]%list_elem_of_singleton|].
  destruct (c =? LEFT_PAREN_CHAR)%N eqn:E4;
    [by intros [= -> ->]%list_elem_of_singleton|].
  destruct (c =? RIGHT_PAREN_CHAR)%N eqn:E5;
    intros [= -> ->]%list_elem_of_singleton; [done|].
  split; [done|]. apply bool_decide_eq_true.
  rewrite !not_elem_of_cons.
  repeat match goal with
         | H : (_ =? _)%N = false |- _ => apply N.eqb_neq in H
         | H : _ || _ = false |- _ => apply orb_false_elim in H as [? ?]
         end.
  repeat split; try done. by intros ?%elem_of_nil.
Qed.

(** X3: a token that scan returns is either an Identifier carrying one
    character of the text, which is not a space, a lambda, a dot or a
    parenthesis, or a token of another kind with the empty payload. *)
Theorem X3_scan_token_shape (text : str) (k : Token) (x : str)
    (Hin : (k, x) ∈ scan text) :
  match k with
  | ID => exists c, x = [c] /\ c ∈ text /\ ordinary c = true
  | _ => x = []
  end.
Proof.
  induction text as [|c text IH]; [by apply elem_of_nil in Hin|].
  rewrite scan_cons in Hin. apply elem_of_app in Hin as [Hin|Hin].
  - apply scan_char_shape in Hin. destruct k; try done.
    destruct Hin as [-> Hc]. exists c. repeat split; [left|done].
  - specialize (IH Hin). destruct k; try done.
    destruct IH as (c' & -> & Hc' & Hord). exists c'.
    repeat split; [by right|done].
Qed.

Lemma X3_scan_token_shape_witness :
  (ID, py "x") ∈ scan (py "(x y)")
  /\ exists c, py "x" = [c] /\ c ∈ py "(x y)" /\ ordinary c = true.
Proof.
  assert (Hin : (ID, py "x") ∈ scan (py "(x y)")).
  { vm_compute. right. left. }
  split; [exact Hin|].
  exact (X3_scan_token_shape (py "(x y)") ID (py "x") Hin).
Defined.

(** ** The parser *)

(** A run of [term()] that built a tree without [None] never looked past
    the end of the tokens, so it is the same run when more tokens
    follow. *)
Lemma term_extend (tokens extra : list token) (fuel : nat) :
  forall i t j,
    term tokens fuel i = Done (t, j) -> well_formed t = true ->
    term (tokens ++ extra) fuel i = Done (t, j).
Proof.
  induction fuel as [|fuel IH]; intros i t j; [done|].
  rewrite !term_S.
  destruct (tokens !! i) as [[k x]|] eqn:Hi;
    [|by intros [= <- <-]].
  rewrite (lookup_app_l_Some _ _ _ _ Hi).
  destruct k; auto.
  destruct (tokens !! S i) as [[k1 x1]|] eqn:Hi1; [|done].
  rewrite (lookup_app_l_Some _ _ _ _ Hi1).
  assert (Happ :
    match term tokens fuel (S i) with
    | Done (res1, j1) =>
        match term tokens fuel j1 with
        | Done (res2, j2) => Done (APP res1 res2, S j2)
        | Fails e => Fails e
        | Spins => Spins
        end
    | Fails e => Fails e
    | Spins => Spins
    end = Done (t, j) -> well_formed t = true ->
    match term (tokens ++ extra) fuel (S i) with
    | Done (res1, j1) =>
        match term (tokens ++ extra) fuel j1 with
        | Done (res2, j2) => Done (APP res1 res2, S j2)
        | Fails e => Fails e
        | Spins => Spins
        end
    | Fails e => Fails e
    | Spins => Spins
    end = Done (t, j)).
  { destruct (term tokens fuel (S i)) as [[res1 j1]| |] eqn:E1; try done.
    destruct (term tokens fuel j1) as [[res2 j2]| |] eqn:E2; try done.
    intros [= <- <-] [Hwf1 Hwf2]%andb_prop.
    by rewrite (IH _ _ _ E1 Hwf1), (IH _ _ _ E2 Hwf2). }
  destruct k1; auto.
  destruct (tokens !! S (S i)) as [[k2 x2]|] eqn:Hi2; [|done].
  rewrite (lookup_app_l_Some _ _ _ _ Hi2).
  destruct (term tokens fuel (4 + i)) as [[body j1]| |] eqn:E; try done.
  intros [= <- <-] Hwf. by rewrite (IH _ _ _ E Hwf).
Qed.

Lemma term_extend_parse (tokens extra : list token) (t : ast) :
  parse tokens = Done t -> well_formed t = true ->
  parse (tokens ++ extra) = Done t.
Proof.
  unfold parse, parse_fuel. intros Hparse Hwf.
  destruct (term tokens (S (length tokens)) 0) as [[t' j]| |] eqn:E;
    try done.
  injection Hparse as ->.
  rewrite (term_fuel_le (tokens ++ extra) (S (length tokens))).
  - by rewrite (term_extend _ _ _ _ _ _ E Hwf).
  - rewrite length_app. lia.
  - by rewrite (term_extend _ _ _ _ _ _ E Hwf).
Qed.

(** X4: parse reads one term and does not look at what follows: when it
    returns a tree without [None], it returns the same tree with any
    tokens appended. *)
Theorem X4_parse_ignores_trailing_tokens (tokens extra : list token)
    (t : ast) (Hparse : parse tokens = Done t) (Hwf : well_formed t = true) :
  parse (tokens ++ extra) = Done t.
Proof. by apply term_extend_parse. Qed.

Lemma X4_parse_ignores_trailing_tokens_witness :
  parse (scan (py "(xy)")) = Done (APP (VAR (py "x")) (VAR (py "y")))
  /\ well_formed (APP (VAR (py "x")) (VAR (py "y"))) = true
  /\ parse (scan (py "(xy)") ++ scan (py ")).z"))
     = Done (APP (VAR (py "x")) (VAR (py "y"))).
Proof.
  split; [reflexivity|]. split; [reflexivity|].
  apply X4_parse_ignores_trailing_tokens; reflexivity.
Defined.

(** X5: the same for a line of the loop: text after a complete term,
    such as the newline that ends the line, does not change what is
    printed. *)
Theorem X5_run_ignores_trailing_text (text more : str) (t : ast)
    (Hparse : parse (scan text) = Done t) (Hwf : well_formed t = true) :
  run (text ++ more) = run text.
Proof.
  unfold run. rewrite scan_app, Hparse.
  rewrite (term_extend_parse (scan text) (scan more) t); done.
Qed.

Lemma X5_run_ignores_trailing_text_witness :
  parse (scan (py "((𝛌x.x)y)"))
  = Done (APP (ABS (py "x") (VAR (py "x"))) (VAR (py "y")))
  /\ well_formed (APP (ABS (py "x") (VAR (py "x"))) (VAR (py "y"))) = true
  /\ run (py "((𝛌x.x)y)" ++ [NEWLINE]) = run (py "((𝛌x.x)y)").
Proof.
  split; [reflexivity|]. split; [reflexivity|].
  apply (X5_run_ignores_trailing_text _ _
           (APP (ABS (py "x") (VAR (py "x"))) (VAR (py "y"))));
    reflexivity.
Defined.

(** X6: when the first token is a Lambda, a Dot or a RightParen, no
    case of the loop of [term()] matches it and the cursor stays on it:
    parse neither returns nor raises, however long it runs. *)
Theorem X6_parse_stuck_on_first_token (tokens : list token) (k : Token)
    (x : str) (Hfirst : tokens !! 0 = Some (k, x))
    (Hkind : k = LAMBDA \/ k = DOT \/ k = RIGHT_PAREN) :
  forall fuel, parse_fuel tokens fuel = Spins.
Proof.
  apply (term_stuck_parse tokens k x Hfirst);
    destruct Hkind as [->|[->| ->]]; done.
Qed.

Lemma X6_parse_stuck_on_first_token_witness :
  scan (py ".x") !! 0 = Some (DOT, [])
  /\ (DOT = LAMBDA \/ DOT = DOT \/ DOT = RIGHT_PAREN)
  /\ forall fuel, parse_fuel (scan (py ".x")) fuel = Spins.
Proof.
  split; [reflexivity|]. split; [right; left; reflexivity|].
  apply (X6_parse_stuck_on_first_token (scan (py ".x")) DOT []);
    [reflexivity|right; left; reflexivity].
Defined.

(** ** Printing and reading back *)

Lemma scan_char_ordinary (c : char) :
  ordinary c = true -> scan_char c = [(ID, [c])].
Proof.
  unfold ordinary, special. intros H%bool_decide_eq_true.
  rewrite !not_elem_of_cons in H.
  destruct H as (H1 & H2 & H3 & H4 & H5 & H6 & _).
  unfold scan_char.
  apply N.eqb_neq in H1, H2, H3, H4, H5, H6.
  by rewrite H1, H2, H3, H4, H5, H6.
Qed.

Lemma scan_textify_abs (c : char) (sb : str) :
  scan (LEFT_PAREN_CHAR :: BOLD_LAMDA :: c :: DOT_CHAR :: sb
        ++ [RIGHT_PAREN_CHAR])
  = (LEFT_PAREN, []) :: (LAMBDA, []) :: scan_char c
      ++ (DOT, []) :: scan sb ++ [(RIGHT_PAREN, [])].
Proof.
  rewrite !scan_cons, scan_app, scan_cons. reflexivity.
Qed.

Lemma scan_textify_app (s1 s2 : str) :
  scan (LEFT_PAREN_CHAR :: s1 ++ s2 ++ [RIGHT_PAREN_CHAR])
  = (LEFT_PAREN, []) :: scan s1 ++ scan s2 ++ [(RIGHT_PAREN, [])].
Proof.
  rewrite scan_cons, !scan_app, scan_cons. reflexivity.
Qed.

Lemma is_name_inv (x : str) :
  is_name x = true -> exists c, x = [c] /\ ordinary c = true.
Proof. destruct x as [|c [|? ?]]; try done. eauto. Qed.

(** The text of a printable tree starts with an identifier or with an
    opening parenthesis. *)
Lemma scan_textify_head (t : ast) (s : str) :
  printable t = true -> textify t = Ok s ->
  exists k x rest, scan s = (k, x) :: rest /\ (k = ID \/ k = LEFT_PAREN).
Proof.
  destruct t as [|x|p body|f a]; simpl; [done| | |].
  - intros (c & -> & Hc)%is_name_inv [= <-].
    exists ID, [c], []. split; [|by left].
    by rewrite scan_cons, scan_char_ordinary.
  - intros [(c & -> & Hc)%is_name_inv _]%andb_prop.
    destruct (textify body) as [sb|]; [|done]. intros [= <-].
    rewrite scan_textify_abs. eauto 10.
  - intros _. destruct (textify f) as [s1|]; [|done].
    destruct (textify a) as [s2|]; [|done]. intros [= <-].
    rewrite scan_textify_app. eauto 10.
Qed.

Lemma lookup_past (pre l : list token) (k : nat) :
  (pre ++ l) !! (length pre + k) = l !! k.
Proof. induction pre as [|a pre IH]; [done|exact IH]. Qed.

(** [term()] started where the tokens of a printed tree begin reads the
    tree back and stops right after them. *)
Lemma term_reads_back (t : ast) :
  forall s, printable t = true -> textify t = Ok s ->
  forall pre post fuel, depth t <= fuel ->
    term (pre ++ scan s ++ post) fuel (length pre)
    = Done (t, length pre + length (scan s)).
Proof.
  induction t as [|x|p body IH|f IHf a IHa];
    intros s Hp Ht pre post [|fuel] Hd; simpl in Hp, Ht, Hd; try lia;
    try done.
  - apply is_name_inv in Hp as (c & -> & Hc). injection Ht as <-.
    rewrite scan_cons, scan_char_ordinary by done.
    rewrite term_S, <- (Nat.add_0_r (length pre)) at 1.
    rewrite lookup_past. cbn. do 2 f_equal. lia.
  - apply andb_prop in Hp as [(c & -> & Hc)%is_name_inv Hb].
    destruct (textify body) as [sb|] eqn:Hsb; [|done]. injection Ht as <-.
    rewrite scan_textify_abs, scan_char_ordinary by done.
    specialize (IH sb Hb eq_refl
                  (pre ++ [(LEFT_PAREN, []); (LAMBDA, []); (ID, [c]); (DOT, [])])
                  ((RIGHT_PAREN, []) :: post) fuel ltac:(lia)).
    rewrite length_app in IH. cbn [length] in IH.
    rewrite <- !app_assoc in IH. cbn [app] in IH.
    rewrite term_S.
    replace (length pre) with (length pre + 0) at 1 by lia.
    replace (S (length pre)) with (length pre + 1) by lia.
    replace (S (length pre + 1)) with (length pre + 2) by lia.
    rewrite !lookup_past. cbn [app lookup list_lookup].
    replace (4 + length pre) with (length pre + 4) by lia.
    rewrite <- !app_assoc. cbn [app]. rewrite_run IH.
    do 2 f_equal. cbn [length]. rewrite ?length_app. cbn [length]. lia.
  - apply andb_prop in Hp as [Hf Ha].
    destruct (textify f) as [s1|] eqn:Hs1; [|done].
    destruct (textify a) as [s2|] eqn:Hs2; [|done]. injection Ht as <-.
    rewrite scan_textify_app.
    destruct (scan_textify_head f s1 Hf Hs1) as (k & x & rest & Hhead & Hk).
    specialize (IHf s1 Hf eq_refl (pre ++ [(LEFT_PAREN, [])])
                  (scan s2 ++ (RIGHT_PAREN, []) :: post) fuel ltac:(lia)).
    specialize (IHa s2 Ha eq_refl (pre ++ (LEFT_PAREN, []) :: scan s1)
                  ((RIGHT_PAREN, []) :: post) fuel ltac:(lia)).
    rewrite !length_app in IHf, IHa. cbn [length] in IHf, IHa.
    rewrite <- !app_assoc in IHf, IHa.
    set (tokens := pre ++ _ ++ post).
    assert (H0 : tokens !! length pre = Some (LEFT_PAREN, [])).
    { unfold tokens. by rewrite <- (Nat.add_0_r (length pre)), lookup_past. }
    assert (H1 : tokens !! S (length pre) = Some (k, x)).
    { unfold tokens. replace (S (length pre)) with (length pre + 1) by lia.
      rewrite lookup_past. cbn. by rewrite Hhead. }
    assert (Hrun1 : term tokens fuel (S (length pre))
                    = Done (f, length pre + 1 + length (scan s1))).
    { replace (S (length pre)) with (length pre + 1) by lia.
      unfold tokens. cbn [app]. rewrite <- !app_assoc. exact IHf. }
    assert (Hrun2 : term tokens fuel (length pre + 1 + length (scan s1))
                    = Done (a, length pre + S (length (scan s1))
                               + length (scan s2))).
    { replace (length pre + 1 + length (scan s1))
        with (length pre + S (length (scan s1))) by lia.
      unfold tokens. cbn [app]. rewrite <- !app_assoc. exact IHa. }
    rewrite term_S, H0, H1.
    assert (Hend : S (length pre + S (length (scan s1)) + length (scan s2))
                   = length pre
                     + length ((LEFT_PAREN, []) :: scan s1 ++ scan s2
                               ++ [(RIGHT_PAREN, [])])).
    { cbn [length]. rewrite !length_app. cbn [length]. lia. }
    destruct Hk as [-> | ->]; by rewrite Hrun1, Hrun2, Hend.
Qed.

Lemma parse_reads_back (t : ast) (s : str) :
  printable t = true -> textify t = Ok s -> parse (scan s) = Done t.
Proof.
  intros Hp Ht. unfold parse, parse_fuel.
  pose proof (term_reads_back t s Hp Ht [] []
                (S (length (scan s)) `max` depth t) ltac:(lia)) as Hrun.
  rewrite app_nil_r in Hrun. cbn [app length] in Hrun.
  rewrite (term_fuel_enough (scan s) (S (length (scan s)))) in Hrun by lia.
  by rewrite Hrun.
Qed.

(** X7: printing then reading is the identity: for a tree without
    [None] whose variables and parameters are single ordinary
    characters, parsing the tokens of its text gives the tree back. *)
Theorem X7_parse_scan_textify (t : ast) (s : str)
    (Hprintable : printable t = true) (Htext : textify t = Ok s) :
  parse (scan s) = Done t.
Proof. by apply parse_reads_back. Qed.

Lemma X7_parse_scan_textify_witness :
  printable (ABS (py "f") (APP (VAR (py "f")) (ABS (py "x") (VAR (py "x")))))
  = true
  /\ textify (ABS (py "f") (APP (VAR (py "f")) (ABS (py "x") (VAR (py "x")))))
     = Ok (py "(𝛌f.(f(𝛌x.x)))")
  /\ parse (scan (py "(𝛌f.(f(𝛌x.x)))"))
     = Done (ABS (py "f") (APP (VAR (py "f")) (ABS (py "x") (VAR (py "x"))))).
Proof.
  split; [reflexivity|]. split; [reflexivity|].
  apply X7_parse_scan_textify; reflexivity.
Defined.

(** ** The printer *)

Lemma textify_succeeds (t : ast) :
  succeeds (textify t) = well_formed t.
Proof.
  induction t as [|x|p body IH|f IHf a IHa]; simpl; try done.
  - by destruct (textify body).
  - destruct (textify f); simpl in *; rewrite <- IHf; [|done].
    by destruct (textify a).
Qed.

(** What each outcome of [textify] on a bounded stack says of the tree. *)
Lemma textify_within_outcome (t : ast) :
  forall limit,
    match textify_within limit t with
    | Ok s => well_formed t = true /\ depth t <= limit /\ textify t = Ok s
    | Raise TypeError => well_formed t = false
    | Raise RecursionError => limit < depth t
    | Raise IndexError => False
    end.
Proof.
  induction t as [|x|p body IH|f IHf a IHa]; intros [|limit]; simpl;
    try done; try lia.
  - split; [done|]. split; [lia|done].
  - specialize (IH limit).
    destruct (textify_within limit body) as [s|[| |]]; simpl; try done.
    + destruct IH as (Hwf & Hd & ->). split; [done|]. split; [lia|done].
    + lia.
  - specialize (IHf limit). specialize (IHa limit).
    destruct (textify_within limit f) as [s1|[| |]]; simpl; try done.
    + destruct IHf as (Hwf1 & Hd1 & ->).
      destruct (textify_within limit a) as [s2|[| |]]; simpl; try done.
      * destruct IHa as (Hwf2 & Hd2 & ->). rewrite Hwf1, Hwf2.
        split; [done|]. split; [lia|done].
      * by rewrite IHa, andb_false_r.
      * lia.
    + by rewrite IHf.
    + lia.
Qed.

Lemma textify_within_fits (t : ast) (limit : nat) :
  well_formed t = true -> depth t <= limit ->
  exists s, textify_within limit t = Ok s.
Proof.
  intros Hwf Hd. pose proof (textify_within_outcome t limit) as H.
  destruct (textify_within limit t) as [s|[| |]]; [by eauto| |done|].
  - congruence.
  - lia.
Qed.

(** X8: textify returns a string exactly on the trees without [None]
    that are not deeper than the call stack has room for, and the string
    is the one computed with room to spare.  When it raises TypeError
    the tree holds a [None]; when it raises RecursionError the tree is
    deeper than the room on the stack; it raises nothing else.  So a
    tree without [None] is printed if it fits and gives RecursionError
    if it does not, and a tree with a [None] that fits gives
    TypeError. *)
Theorem X8_textify_succeeds (t : ast) (limit : nat) :
  match textify_within limit t with
  | Ok s => well_formed t = true /\ depth t <= limit /\ textify t = Ok s
  | Raise TypeError => well_formed t = false
  | Raise RecursionError => limit < depth t
  | Raise IndexError => False
  end
  /\ (if well_formed t then
        if fits limit t
        then exists s, textify_within limit t = Ok s /\ textify t = Ok s
        else textify_within limit t = Raise RecursionError
      else
        if fits limit t
        then textify_within limit t = Raise TypeError
        else textify_within limit t = Raise TypeError
             \/ textify_within limit t = Raise RecursionError).
Proof.
  pose proof (textify_within_outcome t limit) as H.
  split; [exact H|]. unfold fits.
  destruct (well_formed t) eqn:Hwf; case_bool_decide as Hd;
    destruct (textify_within limit t) as [s|[| |]];
    try done; try lia; try (by destruct H as (? & ? & ?); (done || lia)).
  - destruct H as (_ & _ & ->). eauto.
  - by left.
  - by right.
Qed.

(** ** The evaluator *)

(** X9: lookup after pushing a frame: the new frame answers for its own
    parameter, whatever the older frames bind, and every other variable
    is looked up in the older frames. *)
Theorem X9_find_innermost_first (env : list frame) (p x : str) (v : ast) :
  find (env ++ [{[ p := v ]}]) x
  = if decide (p = x) then Some v else find env x.
Proof. apply find_push. Qed.

(** Environments that answer every lookup alike are interchangeable. *)
Lemma interpret_ext (t : ast) :
  forall env1 env2,
    (forall x, find env1 x = find env2 x) ->
    interpret t env1 = interpret t env2.
Proof.
  assert (Hsnoc : forall (env1 env2 : list frame) d,
             (forall x, find env1 x = find env2 x) ->
             forall x, find (env1 ++ [d]) x = find (env2 ++ [d]) x).
  { intros env1 env2 d H x. by rewrite !find_snoc, H. }
  induction t as [|x|p body IH|p body a IHbody IHa|f a Hf]
    using ast_redex_ind; intros env1 env2 H; simpl.
  - done.
  - by rewrite H.
  - by rewrite (IH _ (env2 ++ [{[ p := VAR p ]}])) by by apply Hsnoc.
  - rewrite (IHa env1 env2 H). destruct (interpret a env2) as [v|]; [|done].
    simpl. by apply IHbody, Hsnoc.
  - destruct f as [|x|p body|g h]; try done. by destruct (Hf p body).
Qed.

(** X10: shadowing: under a binder of [p] a binding of [p] made outside
    is not seen, so interpreting an abstraction of [p] gives the same
    result with or without a frame for [p] on top of the environment. *)
Theorem X10_binder_shadows_outer_binding (p : str) (body v : ast)
    (env : list frame) :
  interpret (ABS p body) (env ++ [{[ p := v ]}])
  = interpret (ABS p body) env.
Proof.
  simpl. f_equal. apply interpret_ext. intros x.
  rewrite !find_push. by case_decide.
Qed.

(** X11: the identity applied to an argument is the interpreted
    argument, exceptions included. *)
Theorem X11_identity_application (x : str) (a : ast) (env : list frame) :
  interpret (APP (ABS x (VAR x)) a) env = interpret a env.
Proof.
  simpl. destruct (interpret a env) as [v|e]; [|done]. simpl.
  by rewrite find_push, decide_True.
Qed.

(** X12: an application whose function is a variable or an application
    is returned untouched even as the body of a redex, so the argument is
    dropped and the parameter is left in place: (𝛌p.(f b)) applied to
    anything that evaluates is (f b), also when [f] is the variable
    [p]. *)
Theorem X12_stuck_body_drops_argument (p : str) (f b a v : ast)
    (env : list frame) (Hstuck : normal (APP f b) = true)
    (Harg : interpret a env = Ok v) :
  interpret (APP (ABS p (APP f b)) a) env = Ok (APP f b).
Proof. simpl. rewrite Harg. by destruct f. Qed.

Lemma X12_stuck_body_drops_argument_witness :
  normal (APP (VAR (py "x")) (VAR (py "x"))) = true
  /\ interpret (VAR (py "z")) [] = Ok (VAR (py "z"))
  /\ interpret
       (APP (ABS (py "x") (APP (VAR (py "x")) (VAR (py "x")))) (VAR (py "z")))
       []
     = Ok (APP (VAR (py "x")) (VAR (py "x"))).
Proof.
  split; [reflexivity|]. split; [reflexivity|].
  apply (X12_stuck_body_drops_argument _ _ _ _ (VAR (py "z")));
    reflexivity.
Defined.

(** X13: the constant function: with two different parameters,
    (𝛌x.(𝛌y.x)) applied to an argument is the abstraction of [y] over
    the interpreted argument; nothing is renamed, so a [y] free in the
    argument ends up under the binder. *)
Theorem X13_constant_function (x y : str) (a v : ast) (env : list frame)
    (Hxy : x <> y) (Harg : interpret a env = Ok v) :
  interpret (APP (ABS x (ABS y (VAR x))) a) env = Ok (ABS y v).
Proof.
  simpl. rewrite Harg. simpl.
  rewrite !find_push.
  rewrite decide_False by done. by rewrite decide_True.
Qed.

Lemma X13_constant_function_witness :
  py "x" <> py "y"
  /\ interpret (VAR (py "y")) [] = Ok (VAR (py "y"))
  /\ interpret
       (APP (ABS (py "x") (ABS (py "y") (VAR (py "x")))) (VAR (py "y"))) []
     = Ok (ABS (py "y") (VAR (py "y"))).
Proof.
  assert (Hxy : py "x" <> py "y") by (vm_compute; discriminate).
  split; [exact Hxy|]. split; [reflexivity|].
  apply X13_constant_function; [exact Hxy|reflexivity].
Defined.

Section preserved.
Variable name_ok : str -> bool.
Variable P : ast -> bool.
Hypothesis P_VAR : forall x, P (VAR x) = name_ok x.
Hypothesis P_ABS : forall p body, P (ABS p body) = name_ok p && P body.
Hypothesis P_APP : forall f a, P (APP f a) = P f && P a.

Lemma env_all_snoc (env : list frame) (p : str) (v : ast) :
  env_all P env -> P v = true -> env_all P (env ++ [{[ p := v ]}]).
Proof.
  intros Henv Hv d x w [Hin|Hin%list_elem_of_singleton]%elem_of_app Hd.
  - by eapply Henv.
  - subst d. apply lookup_singleton_Some in Hd as [_ <-]. done.
Qed.

(** A property of trees that only constrains the names is kept by
    [interpret] when the bindings have it. *)
Lemma interpret_preserves (t : ast) :
  forall env v, env_all P env -> P t = true -> interpret t env = Ok v ->
                P v = true.
Proof.
  induction t as [|x|p body IH|p body a IHbody IHa|f a Hf]
    using ast_redex_ind; intros env v Henv Ht; simpl.
  - done.
  - destruct (find env x) as [res|] eqn:Hfind; intros [= <-]; [|done].
    apply find_Some in Hfind as (d & Hin & Hd). by eapply Henv.
  - rewrite P_ABS in Ht. apply andb_prop in Ht as [Hp Hbody].
    destruct (interpret body _) as [body'|e] eqn:Hrun; [|done].
    intros [= <-]. rewrite P_ABS, Hp. simpl.
    eapply IH; [|done|exact Hrun]. apply env_all_snoc; [done|].
    by rewrite P_VAR.
  - rewrite P_APP, P_ABS in Ht.
    apply andb_prop in Ht as [[Hp Hbody]%andb_prop Ha].
    destruct (interpret a env) as [w|e] eqn:Hrun; [|done]. simpl.
    intros Hrun'. eapply IHbody; [|done|exact Hrun'].
    apply env_all_snoc; [done|]. by eapply IHa.
  - destruct f as [|x|p body|g h];
      [done| |by destruct (Hf p body)| ]; by intros [= <-].
Qed.

End preserved.

Lemma env_all_nil (P : ast -> bool) : env_all P [].
Proof. intros d x v Hin. by apply elem_of_nil in Hin. Qed.

Lemma interpret_well_formed (t v : ast) (env : list frame) :
  env_all well_formed env -> well_formed t = true ->
  interpret t env = Ok v -> well_formed v = true.
Proof. by apply (interpret_preserves (fun _ => true) well_formed). Qed.

Lemma interpret_printable (t v : ast) (env : list frame) :
  env_all printable env -> printable t = true ->
  interpret t env = Ok v -> printable v = true.
Proof. by apply (interpret_preserves is_name printable). Qed.

Lemma depth_le_size (t : ast) : depth t <= size t.
Proof. induction t; simpl; lia. Qed.

Lemma size_pos (t : ast) : 1 <= size t.
Proof. destruct t; simpl; lia. Qed.

Lemma env_all_fits_mono (D D' : nat) (env : list frame) :
  D <= D' -> env_all (fits D) env -> env_all (fits D') env.
Proof.
  intros Hle Henv d x v Hin Hd. specialize (Henv d x v Hin Hd).
  unfold fits in *. apply bool_decide_eq_true.
  apply bool_decide_eq_true in Henv. lia.
Qed.

(** The result of [interpret] is at most as deep as the tree has nodes,
    plus the depth of the deepest binding put in its place. *)
Lemma interpret_depth (t : ast) :
  forall D env v,
    1 <= D -> env_all (fits D) env -> interpret t env = Ok v ->
    depth v + 1 <= size t + D.
Proof.
  induction t as [|x|p body IH|p body a IHbody IHa|f a Hf]
    using ast_redex_ind; intros D env v HD Henv; simpl.
  - done.
  - destruct (find env x) as [res|] eqn:Hfind; intros [= <-].
    + apply find_Some in Hfind as (d & Hin & Hd).
      specialize (Henv d x res Hin Hd). unfold fits in Henv.
      apply bool_decide_eq_true in Henv. lia.
    + simpl. lia.
  - destruct (interpret body _) as [body'|e] eqn:Hrun; [|done].
    intros [= <-]. simpl.
    assert (depth body' + 1 <= size body + D); [|lia].
    eapply IH; [done| |exact Hrun]. apply env_all_snoc; [done|].
    unfold fits. apply bool_decide_eq_true. simpl. lia.
  - destruct (interpret a env) as [w|e] eqn:Hrun; [|done]. simpl.
    intros Hrun'.
    assert (Hw : depth w + 1 <= size a + D) by by eapply IHa.
    pose proof (size_pos a) as Hpos.
    assert (depth v + 1 <= size body + (size a + D - 1)); [|lia].
    eapply (IHbody (size a + D - 1)); [lia| |exact Hrun'].
    apply env_all_snoc.
    + eapply env_all_fits_mono; [|done]. lia.
    + unfold fits. apply bool_decide_eq_true. lia.
  - pose proof (depth_le_size (APP f a)) as Hle. simpl in Hle.
    destruct f as [|x|p body|g h];
      [done| |by destruct (Hf p body)| ]; intros [= <-]; simpl in *; lia.
Qed.

(** X14: evaluation and printing do not fail on a tree without [None]
    when the call stack has room: if the bindings of the environment
    are trees without [None], at most [D] deep, and the stack has room
    for [size t + D - 1] nested calls, interpret returns a tree and
    textify returns its text, both as with room to spare. *)
Theorem X14_interpret_then_textify (t : ast) (env : list frame)
    (D limit : nat)
    (Hwf : well_formed t = true) (Henv : env_all well_formed env)
    (HD : 1 <= D) (Hdeep : env_all (fits D) env)
    (Hfit : size t + D <= S limit) :
  succeeds (interpret_within limit t env ≫= textify_within limit) = true
  /\ interpret_within limit t env ≫= textify_within limit
     = interpret t env ≫= textify.
Proof.
  pose proof (depth_le_size t) as Hle.
  rewrite interpret_within_depth by lia.
  destruct (interpret_total t env Hwf) as [v Hv]. rewrite Hv. simpl.
  assert (Hwfv : well_formed v = true) by by eapply interpret_well_formed.
  assert (Hdv : depth v + 1 <= size t + D) by by eapply interpret_depth.
  destruct (textify_within_fits v limit Hwfv ltac:(lia)) as [s Hs].
  rewrite Hs. split; [done|].
  pose proof (textify_within_outcome v limit) as H. rewrite Hs in H.
  by destruct H as (_ & _ & ->).
Qed.

Lemma X14_interpret_then_textify_witness :
  well_formed (APP (ABS (py "x") (VAR (py "x"))) (VAR (py "y"))) = true
  /\ env_all well_formed [{[ py "y" := VAR (py "z") ]}]
  /\ 1 <= 1
  /\ env_all (fits 1) [{[ py "y" := VAR (py "z") ]}]
  /\ size (APP (ABS (py "x") (VAR (py "x"))) (VAR (py "y"))) + 1 <= 5
  /\ succeeds
       (interpret_within 4 (APP (ABS (py "x") (VAR (py "x"))) (VAR (py "y")))
          [{[ py "y" := VAR (py "z") ]}] ≫= textify_within 4) = true
  /\ interpret_within 4 (APP (ABS (py "x") (VAR (py "x"))) (VAR (py "y")))
       [{[ py "y" := VAR (py "z") ]}] ≫= textify_within 4
     = interpret (APP (ABS (py "x") (VAR (py "x"))) (VAR (py "y")))
         [{[ py "y" := VAR (py "z") ]}] ≫= textify.
Proof.
  assert (Henv : env_all well_formed [{[ py "y" := VAR (py "z") ]}]).
  { intros d x v ->%list_elem_of_singleton Hd.
    apply lookup_singleton_Some in Hd as [_ <-]. reflexivity. }
  assert (Hdeep : env_all (fits 1) [{[ py "y" := VAR (py "z") ]}]).
  { intros d x v ->%list_elem_of_singleton Hd.
    apply lookup_singleton_Some in Hd as [_ <-]. reflexivity. }
  split; [reflexivity|]. split; [exact Henv|]. split; [lia|].
  split; [exact Hdeep|]. split; [simpl; lia|].
  apply (X14_interpret_then_textify _ _ 1 4);
    [reflexivity|exact Henv|lia|exact Hdeep|simpl; lia].
Defined.

(** X15: an answer of the loop is its own answer: when a line is read
    as a printable tree and the loop prints [s] for it, the loop prints
    [s] again for the line [s]. *)
Theorem X15_answer_is_stable (line s : str) (t : ast)
    (Hparse : parse (scan line) = Done t) (Hprintable : printable t = true)
    (Hrun : run line = Done s) :
  run s = Done s.
Proof.
  unfold run in Hrun. rewrite Hparse in Hrun. simpl in Hrun.
  destruct (interpret t []) as [v|] eqn:Hv; [|done]. simpl in Hrun.
  destruct (textify v) as [s'|] eqn:Hs; [|done]. injection Hrun as ->.
  assert (Hpv : printable v = true).
  { eapply interpret_printable; [apply env_all_nil|done|done]. }
  assert (Hfix : interpret v [] = Ok v).
  { apply interpret_fixed; [|apply self_bound_nil].
    eapply interpret_normal; [apply env_normal_nil|exact Hv]. }
  unfold run. rewrite (parse_reads_back v s Hpv Hs). simpl.
  rewrite Hfix. simpl. by rewrite Hs.
Qed.

Lemma X15_answer_is_stable_witness :
  parse (scan (py "((𝛌x.(𝛌y.x))z)"))
  = Done (APP (ABS (py "x") (ABS (py "y") (VAR (py "x")))) (VAR (py "z")))
  /\ printable
       (APP (ABS (py "x") (ABS (py "y") (VAR (py "x")))) (VAR (py "z")))
     = true
  /\ run (py "((𝛌x.(𝛌y.x))z)") = Done (py "(𝛌y.z)")
  /\ run (py "(𝛌y.z)") = Done (py "(𝛌y.z)").
Proof.
  split; [reflexivity|]. split; [reflexivity|]. split; [reflexivity|].
  apply (X15_answer_is_stable (py "((𝛌x.(𝛌y.x))z)") _
           (APP (ABS (py "x") (ABS (py "y") (VAR (py "x")))) (VAR (py "z"))));
    reflexivity.
Defined.

(** ** The loop *)

Lemma scan_spaces (line : str) :
  Forall (fun c => c = SPACE) line -> scan line = [].
Proof.
  induction 1 as [|c line -> _ IH]; [done|]. by rewrite scan_cons, IH.
Qed.

(** X16: a line made of spaces only, the empty line included, has no
    token: parse returns [None] and the pipeline raises TypeError. *)
Theorem X16_blank_line_raises (line : str)
    (Hblank : Forall (fun c => c = SPACE) line) :
  run line = Fails TypeError.
Proof. unfold run. by rewrite scan_spaces. Qed.

Lemma X16_blank_line_raises_witness :
  Forall (fun c => c = SPACE) (py "   ")
  /\ run (py "   ") = Fails TypeError.
Proof.
  assert (Hblank : Forall (fun c => c = SPACE) (py "   ")).
  { vm_compute. repeat constructor. }
  split; [exact Hblank|]. exact (X16_blank_line_raises _ Hblank).
Defined.

Lemma repl_loop_stops (before after : list str) (bad : str) :
  returned (run bad) = false ->
  repl_loop (before ++ bad :: after) = repl_loop (before ++ [bad]).
Proof.
  intros Hbad. induction before as [|line before IH]; simpl.
  - by destruct (run bad).
  - destruct (run line); [|done|done]. by rewrite IH.
Qed.

(** X17: the loop ends at the first line whose pipeline does not
    return: the lines after it are not read and nothing more is
    printed. *)
Theorem X17_repl_stops_at_first_failure (before after : list str)
    (bad : str) (Hbad : returned (run bad) = false) :
  repl (before ++ bad :: after) = repl (before ++ [bad]).
Proof. unfold repl. by rewrite repl_loop_stops. Qed.

Lemma X17_repl_stops_at_first_failure_witness :
  returned (run (py ")")) = false
  /\ repl ([py "x"] ++ py ")" :: [py "y"]) = repl ([py "x"] ++ [py ")"]).
Proof.
  split; [reflexivity|].
  apply X17_repl_stops_at_first_failure. reflexivity.
Defined.


(** X18: the loop reaches the end of the input exactly when the
    pipeline returns on every line. *)
Theorem X18_repl_ends_normally (stdin : list str) :
  returned (repl stdin).2 = forallb (fun line => returned (run line)) stdin.
Proof.
  unfold repl.
  induction stdin as [|line stdin IH]; [reflexivity|]. simpl.
  destruct (run line); [|done|done].
  by destruct (repl_loop stdin).
Qed.

(** X19: lines are answered independently of each other: when the
    pipeline returns on every line, the output is the prompt followed by
    the answers of the lines, in order, each with its newline and the
    next prompt. *)
Theorem X19_repl_output (stdin : list str)
    (Hall : forallb (fun line => returned (run line)) stdin = true) :
  repl stdin = (prompt ++ concat (map answer stdin), Done tt).
Proof.
  unfold repl.
  assert (Hloop : repl_loop stdin = (concat (map answer stdin), Done tt)).
  { induction stdin as [|line stdin IH]; [reflexivity|]. simpl in *.
    unfold answer at 1.
    destruct (run line); [|done|done]. rewrite (IH Hall).
    by rewrite <- !app_assoc. }
  by rewrite Hloop.
Qed.

Lemma X19_repl_output_witness :
  forallb (fun line => returned (run line)) [py "((𝛌x.x)y)"; py "z"] = true
  /\ repl [py "((𝛌x.x)y)"; py "z"]
     = (prompt ++ concat (map answer [py "((𝛌x.x)y)"; py "z"]), Done tt).
Proof.
  split; [reflexivity|]. apply X19_repl_output. reflexivity.
Defined.

(** ** What the parser does not check *)

(** X20: the token that closes an application is not looked at: after
    an opening parenthesis and the tokens of two printable trees, the
    application is returned whatever follows, a closing parenthesis,
    something else or nothing. *)
Theorem X20_closing_token_unchecked (f a : ast) (s1 s2 : str)
    (junk : list token)
    (Hf : printable f = true) (Hs1 : textify f = Ok s1)
    (Ha : printable a = true) (Hs2 : textify a = Ok s2) :
  parse ((LEFT_PAREN, []) :: scan s1 ++ scan s2 ++ junk) = Done (APP f a).
Proof.
  set (tokens := (LEFT_PAREN, []) :: scan s1 ++ scan s2 ++ junk).
  set (fuel := S (length tokens) `max` (depth f `max` depth a)).
  destruct (scan_textify_head f s1 Hf Hs1) as (k & x & rest & Hhead & Hk).
  assert (H1 : tokens !! 1 = Some (k, x)).
  { unfold tokens. by rewrite Hhead. }
  assert (Hrun1 : term tokens fuel 1 = Done (f, 1 + length (scan s1))).
  { apply (term_reads_back f s1 Hf Hs1 [(LEFT_PAREN, [])] (scan s2 ++ junk)).
    unfold fuel. lia. }
  assert (Hrun2 : term tokens fuel (1 + length (scan s1))
                  = Done (a, 1 + length (scan s1) + length (scan s2))).
  { pose proof (term_reads_back a s2 Ha Hs2 ((LEFT_PAREN, []) :: scan s1)
                  junk fuel ltac:(unfold fuel; lia)) as Hrun.
    exact Hrun. }
  unfold parse, parse_fuel. fold tokens.
  rewrite <- (term_fuel_enough tokens (S (length tokens)) (S fuel))
    by (unfold fuel; lia).
  rewrite term_S. change (tokens !! 0) with (Some (LEFT_PAREN, @nil N)).
  rewrite H1.
  destruct Hk as [-> | ->]; by rewrite Hrun1, Hrun2.
Qed.

Lemma X20_closing_token_unchecked_witness :
  printable (VAR (py "x")) = true
  /\ textify (VAR (py "x")) = Ok (py "x")
  /\ printable (VAR (py "y")) = true
  /\ textify (VAR (py "y")) = Ok (py "y")
  /\ parse ((LEFT_PAREN, []) :: scan (py "x") ++ scan (py "y") ++ [])
     = Done (APP (VAR (py "x")) (VAR (py "y"))).
Proof.
  repeat (split; [reflexivity|]).
  apply X20_closing_token_unchecked; reflexivity.
Defined.

(** X21: in an abstraction neither the binder nor the dot is checked:
    the parameter is the payload of whatever token follows the lambda,
    empty unless that token is an identifier, and the token after it is
    skipped unseen before the body is read. *)
Theorem X21_binder_and_dot_unchecked (binder skipped : token) (body : ast)
    (sb : str) (junk : list token)
    (Hbody : printable body = true) (Hsb : textify body = Ok sb) :
  parse ((LEFT_PAREN, []) :: (LAMBDA, []) :: binder :: skipped
           :: scan sb ++ junk)
  = Done (ABS binder.2 body).
Proof.
  set (tokens := (LEFT_PAREN, []) :: (LAMBDA, []) :: binder :: skipped
                   :: scan sb ++ junk).
  set (fuel := S (length tokens) `max` depth body).
  assert (Hrun : term tokens fuel 4 = Done (body, 4 + length (scan sb))).
  { apply (term_reads_back body sb Hbody Hsb
             [(LEFT_PAREN, []); (LAMBDA, []); binder; skipped] junk).
    unfold fuel. lia. }
  unfold parse, parse_fuel. fold tokens.
  rewrite <- (term_fuel_enough tokens (S (length tokens)) (S fuel))
    by (unfold fuel; lia).
  rewrite term_S.
  change (tokens !! 0) with (Some (LEFT_PAREN, @nil N)).
  change (tokens !! 1) with (Some (LAMBDA, @nil N)).
  change (tokens !! 2) with (Some binder).
  change (4 + 0) with 4. rewrite Hrun. by destruct binder.
Qed.

Lemma X21_binder_and_dot_unchecked_witness :
  printable (VAR (py "x")) = true
  /\ textify (VAR (py "x")) = Ok (py "x")
  /\ parse ((LEFT_PAREN, []) :: (LAMBDA, []) :: (DOT, []) :: (ID, py "y")
              :: scan (py "x") ++ [])
     = Done (ABS [] (VAR (py "x"))).
Proof.
  repeat (split; [reflexivity|]).
  apply (X21_binder_and_dot_unchecked (DOT, []) (ID, py "y"));
    reflexivity.
Defined.
